(** * Wuffs base runtime: [core-public.h]

    A shallow embedding of the public core of the Wuffs C runtime
    (src/cmd/wuffs-c/internal/cgen/base/core-public.h): the status
    predicates, the saturating arithmetic on the four unsigned fixed widths,
    the slice (1-dimensional buffer) sub-slicing functions and the version
    constants.

    Conventions of the embedding.
    - A C unsigned integer of width w is a [Z] in [0, 2^w); every conversion
      to such a type is written out as a reduction modulo [2^w] ([wrap]).
    - [int] is 32 bits wide, so [uint8_t] and [uint16_t] operands are promoted
      to [int] (where their sums and differences are exact) while [uint32_t]
      and [uint64_t] operands are computed in their own unsigned type.
    - A C comparison yields the [int] 0 or 1 ([b2i]).
    - A pointer is the address it holds, [NULL] being address 0. *)

From Stdlib Require Import ZArith Lia Bool Ascii String List.
Import ListNotations.

Local Open Scope Z_scope.

(** ** C integer types *)

Module CInt.

(** Conversion to an unsigned type of [w] bits. *)
Definition wrap (w x : Z) : Z := x mod 2 ^ w.

Definition to_u8 : Z -> Z := wrap 8.
Definition to_u16 : Z -> Z := wrap 16.
Definition to_u32 : Z -> Z := wrap 32.
Definition to_u64 : Z -> Z := wrap 64.

(** The values of an unsigned type of [w] bits. *)
Definition is_uint (w x : Z) : Prop := 0 <= x < 2 ^ w.

(** The [int] value of a C comparison. *)
Definition b2i (b : bool) : Z := if b then 1 else 0.

(** The four fixed widths of the header. *)
Inductive width : Type := W8 | W16 | W32 | W64.

Definition bits (w : width) : Z :=
  match w with W8 => 8 | W16 => 16 | W32 => 32 | W64 => 64 end.

(** Largest value of the unsigned type of that width. *)
Definition umax (w : width) : Z := 2 ^ bits w - 1.

End CInt.

(** ** Numeric types: saturating arithmetic *)

Module Numeric.
Import CInt.

(** [uint8_t res = x + y; res |= -(res < x); return res;]
    The sum is taken in [int] and converted to [uint8_t]; the mask
    [-(res < x)] is the [int] 0 or -1, and the compound assignment converts
    [res | mask] back to [uint8_t]. *)
Definition wuffs_base__u8__sat_add (x y : Z) : Z :=
  let res := to_u8 (x + y) in
  let res := to_u8 (Z.lor res (- b2i (res <? x))) in
  res.

(** [uint8_t res = x - y; res &= -(res <= x); return res;] *)
Definition wuffs_base__u8__sat_sub (x y : Z) : Z :=
  let res := to_u8 (x - y) in
  let res := to_u8 (Z.land res (- b2i (res <=? x))) in
  res.

Definition wuffs_base__u16__sat_add (x y : Z) : Z :=
  let res := to_u16 (x + y) in
  let res := to_u16 (Z.lor res (- b2i (res <? x))) in
  res.

Definition wuffs_base__u16__sat_sub (x y : Z) : Z :=
  let res := to_u16 (x - y) in
  let res := to_u16 (Z.land res (- b2i (res <=? x))) in
  res.

(** [uint32_t res = x + y; res |= -(res < x); return res;]
    The sum wraps in [uint32_t]; the [int] mask is converted to [uint32_t]
    before the bitwise or. *)
Definition wuffs_base__u32__sat_add (x y : Z) : Z :=
  let res := to_u32 (x + y) in
  let res := to_u32 (Z.lor res (to_u32 (- b2i (res <? x)))) in
  res.

Definition wuffs_base__u32__sat_sub (x y : Z) : Z :=
  let res := to_u32 (x - y) in
  let res := to_u32 (Z.land res (to_u32 (- b2i (res <=? x)))) in
  res.

Definition wuffs_base__u64__sat_add (x y : Z) : Z :=
  let res := to_u64 (x + y) in
  let res := to_u64 (Z.lor res (to_u64 (- b2i (res <? x)))) in
  res.

Definition wuffs_base__u64__sat_sub (x y : Z) : Z :=
  let res := to_u64 (x - y) in
  let res := to_u64 (Z.land res (to_u64 (- b2i (res <=? x)))) in
  res.

(** The function of each width. *)
Definition sat_add (w : width) : Z -> Z -> Z :=
  match w with
  | W8 => wuffs_base__u8__sat_add
  | W16 => wuffs_base__u16__sat_add
  | W32 => wuffs_base__u32__sat_add
  | W64 => wuffs_base__u64__sat_add
  end.

Definition sat_sub (w : width) : Z -> Z -> Z :=
  match w with
  | W8 => wuffs_base__u8__sat_sub
  | W16 => wuffs_base__u16__sat_sub
  | W32 => wuffs_base__u32__sat_sub
  | W64 => wuffs_base__u64__sat_sub
  end.

End Numeric.

(** ** Statuses *)

Module Status.

(** [typedef const char* wuffs_base__status;]
    A status is [NULL] or the address of a statically allocated message. *)
Definition wuffs_base__status : Type := Z.

Definition NULL : Z := 0.

Section Predicates.

(** The static storage the messages live in: the [char] at each address.
    [*z] reads it at [z]. *)
Variable rodata : Z -> ascii.

Definition deref (z : wuffs_base__status) : ascii := rodata z.

(** [return (z == NULL) || (( *z != '$') && ( *z != '?'));] *)
Definition wuffs_base__status__is_complete (z : wuffs_base__status) : bool :=
  (z =? NULL) ||
  (negb (deref z =? "$")%char && negb (deref z =? "?")%char).

(** [return z && ( *z == '?');] *)
Definition wuffs_base__status__is_error (z : wuffs_base__status) : bool :=
  negb (z =? NULL) && (deref z =? "?")%char.

(** [return z == NULL;] *)
Definition wuffs_base__status__is_ok (z : wuffs_base__status) : bool :=
  z =? NULL.

(** [return z && ( *z == '$');] *)
Definition wuffs_base__status__is_suspension (z : wuffs_base__status) : bool :=
  negb (z =? NULL) && (deref z =? "$")%char.

(** [return z && ( *z != '$') && ( *z != '?');] *)
Definition wuffs_base__status__is_warning (z : wuffs_base__status) : bool :=
  negb (z =? NULL) &&
  negb (deref z =? "$")%char && negb (deref z =? "?")%char.

(** How many of the four category predicates hold of [z]. *)
Definition categories_holding (z : wuffs_base__status) : nat :=
  (Nat.b2n (wuffs_base__status__is_ok z) +
   Nat.b2n (wuffs_base__status__is_warning z) +
   Nat.b2n (wuffs_base__status__is_suspension z) +
   Nat.b2n (wuffs_base__status__is_error z))%nat.

End Predicates.

(** A static storage holding the NUL-terminated [msg] at address [base],
    and NUL everywhere else. *)
Definition rodata_with (base : Z) (msg : string) : Z -> ascii :=
  fun a =>
    if (base <=? a) && (a <? base + Z.of_nat (String.length msg))
    then match String.get (Z.to_nat (a - base)) msg with
         | Some c => c
         | None => zero
         end
    else zero.

End Status.

(** ** Slices *)

Module Slice.
Import CInt.

(** [WUFFS_BASE__SLICE(T)]: [struct { T* ptr; size_t len; }].
    [len] counts elements.  The four typedefs [wuffs_base__slice_u8],
    [_u16], [_u32] and [_u64] instantiate this one layout. *)
Record slice : Type := mk_slice { ptr : Z; len : Z }.

Inductive slice_type : Type :=
| slice_u8 | slice_u16 | slice_u32 | slice_u64.

(** [sizeof(T)] of the element type, in bytes. *)
Definition elem_size (t : slice_type) : Z :=
  match t with slice_u8 => 1 | slice_u16 => 2 | slice_u32 => 4 | slice_u64 => 8 end.

(** [p + i] on a [T*]: the address [i] elements past [p]. *)
Definition ptr_add (t : slice_type) (p i : Z) : Z := p + elem_size t * i.

(** [((wuffs_base__slice_u8){})]: all fields [NULL] or zero. *)
Definition empty_slice : slice := {| ptr := Status.NULL; len := 0 |}.

(** [r] is a window of [s]: it starts [off] elements into [s] and ends
    within it. *)
Definition window_at (s : slice) (off : Z) (r : slice) : Prop :=
  0 <= off <= len s /\
  ptr r = ptr_add slice_u8 (ptr s) off /\
  0 <= len r <= len s /\
  off + len r <= len s.

Definition contained_in (s r : slice) : Prop := exists off, window_at s off r.

Section WithSizeT.

(** [SIZE_MAX] of <stdint.h>, the largest [size_t]. *)
Variable SIZE_MAX : Z.

(** Conversion to [size_t]. *)
Definition to_size_t (x : Z) : Z := x mod (SIZE_MAX + 1).

(** The header's assumptions on the platform: a [uint32_t] fits a
    [size_t] and a [size_t] fits a [uint64_t]. *)
Definition size_t_ok : Prop := 2 ^ 32 - 1 <= SIZE_MAX <= 2 ^ 64 - 1.

(** A slice value as the C type holds it: [len] is a [size_t]. *)
Definition slice_wf (s : slice) : Prop := 0 <= len s <= SIZE_MAX.

(** [wuffs_base__slice_u8__subslice_i] returns [s[i:]].
<<
  if ((i <= SIZE_MAX) && (i <= s.len)) {
    return ((wuffs_base__slice_u8){ .ptr = s.ptr + i, .len = s.len - i });
  }
  return ((wuffs_base__slice_u8){});
>>
    [i] is a [uint64_t]; [s.len - i] is computed in [uint64_t] and
    stored in a [size_t]. *)
Definition wuffs_base__slice_u8__subslice_i (s : slice) (i : Z) : slice :=
  if (i <=? SIZE_MAX) && (i <=? len s) then
    {| ptr := ptr_add slice_u8 (ptr s) i;
       len := to_size_t (to_u64 (len s - i)) |}
  else empty_slice.

(** [wuffs_base__slice_u8__subslice_j] returns [s[:j]].
<<
  if ((j <= SIZE_MAX) && (j <= s.len)) {
    return ((wuffs_base__slice_u8){ .ptr = s.ptr, .len = j });
  }
  return ((wuffs_base__slice_u8){});
>> *)
Definition wuffs_base__slice_u8__subslice_j (s : slice) (j : Z) : slice :=
  if (j <=? SIZE_MAX) && (j <=? len s) then
    {| ptr := ptr s;
       len := to_size_t j |}
  else empty_slice.

(** [wuffs_base__slice_u8__subslice_ij] returns [s[i:j]].
<<
  if ((i <= j) && (j <= SIZE_MAX) && (j <= s.len)) {
    return ((wuffs_base__slice_u8){ .ptr = s.ptr + i, .len = j - i });
  }
  return ((wuffs_base__slice_u8){});
>> *)
Definition wuffs_base__slice_u8__subslice_ij (s : slice) (i j : Z) : slice :=
  if (i <=? j) && (j <=? SIZE_MAX) && (j <=? len s) then
    {| ptr := ptr_add slice_u8 (ptr s) i;
       len := to_size_t (to_u64 (j - i)) |}
  else empty_slice.

(** A call of one of the three functions, with its [uint64_t] arguments. *)
Inductive subslice_call : Type :=
| call_i (i : Z)
| call_j (j : Z)
| call_ij (i j : Z).

Definition run (c : subslice_call) (s : slice) : slice :=
  match c with
  | call_i i => wuffs_base__slice_u8__subslice_i s i
  | call_j j => wuffs_base__slice_u8__subslice_j s j
  | call_ij i j => wuffs_base__slice_u8__subslice_ij s i j
  end.

(** The arguments are values of [uint64_t]. *)
Definition call_typed (c : subslice_call) : Prop :=
  match c with
  | call_i i => is_uint 64 i
  | call_j j => is_uint 64 j
  | call_ij i j => is_uint 64 i /\ is_uint 64 j
  end.

(** The arguments do not denote a sub-range of [s]. *)
Definition out_of_range (s : slice) (c : subslice_call) : Prop :=
  match c with
  | call_i i => len s < i
  | call_j j => len s < j
  | call_ij i j => j < i \/ len s < j
  end.

End WithSizeT.

(** [SIZE_MAX] where [size_t] has 32 bits, and where it has 64. *)
Definition size_max_32 : Z := 2 ^ 32 - 1.
Definition size_max_64 : Z := 2 ^ 64 - 1.

(** A sample slice: 10 elements at address 4096. *)
Definition buf10 : slice := {| ptr := 4096; len := 10 |}.

End Slice.

(** ** Version *)

Module Version.
Import CInt.

(** [#define WUFFS_VERSION ((uint64_t)0)] and its three components. *)
Definition WUFFS_VERSION : Z := to_u64 0.
Definition WUFFS_VERSION_MAJOR : Z := to_u64 0.
Definition WUFFS_VERSION_MINOR : Z := to_u64 0.
Definition WUFFS_VERSION_PATCH : Z := to_u64 0.
Definition WUFFS_VERSION_EXTENSION : string := EmptyString.
Definition WUFFS_VERSION_STRING : string := "0.0.0".

(** Modelled from the spec: the three fields of the packed identifier,
    "major in high 32 bits, minor in next 16, patch in low 16".  The header's
    comment on [WUFFS_VERSION] words the same layout ("The major number is
    the high 32 bits. The minor number is the middle 16 bits. The patch
    number is the low 16 bits."); no function of the header reads them. *)
Definition major_of (v : Z) : Z := Z.shiftr v 32.
Definition minor_of (v : Z) : Z := Z.land (Z.shiftr v 16) (Z.ones 16).
Definition patch_of (v : Z) : Z := Z.land v (Z.ones 16).

(** Modelled from the spec: "All-zero major/minor/patch is a reserved
    sentinel", the work-in-progress version of the header's comment. *)
Definition work_in_progress (v : Z) : bool :=
  (major_of v =? 0) && (minor_of v =? 0) && (patch_of v =? 0).

(** Modelled from the spec: the composition of the packed identifier from
    its components, which is done by the code generator that overrides
    these constants and is not part of the header; the spec words it as
    [(major << 48) | (minor << 16) | patch], on [uint64_t]. *)
Definition spec_pack (major minor patch : Z) : Z :=
  Z.lor (Z.lor (to_u64 (Z.shiftl major 48)) (to_u64 (Z.shiftl minor 16))) patch.

End Version.

(** ** Numeric types: minimum and maximum *)

Module MinMax.
Import CInt.

(** [return x < y ? x : y;] *)
Definition wuffs_base__u8__min (x y : Z) : Z := if x <? y then x else y.

(** [return x > y ? x : y;] *)
Definition wuffs_base__u8__max (x y : Z) : Z := if x >? y then x else y.

Definition wuffs_base__u16__min (x y : Z) : Z := if x <? y then x else y.

Definition wuffs_base__u16__max (x y : Z) : Z := if x >? y then x else y.

Definition wuffs_base__u32__min (x y : Z) : Z := if x <? y then x else y.

Definition wuffs_base__u32__max (x y : Z) : Z := if x >? y then x else y.

Definition wuffs_base__u64__min (x y : Z) : Z := if x <? y then x else y.

Definition wuffs_base__u64__max (x y : Z) : Z := if x >? y then x else y.

(** The function of each width. *)
Definition u_min (w : width) : Z -> Z -> Z :=
  match w with
  | W8 => wuffs_base__u8__min
  | W16 => wuffs_base__u16__min
  | W32 => wuffs_base__u32__min
  | W64 => wuffs_base__u64__min
  end.

Definition u_max (w : width) : Z -> Z -> Z :=
  match w with
  | W8 => wuffs_base__u8__max
  | W16 => wuffs_base__u16__max
  | W32 => wuffs_base__u32__max
  | W64 => wuffs_base__u64__max
  end.

End MinMax.

(** * Properties *)

(** ** Wrap-around arithmetic *)

Section Wrap.
Import CInt.

Variable n : Z.
Hypothesis n_pos : 0 < n.

Lemma pow2_pos : 0 < 2 ^ n.
Proof using n_pos. apply Z.pow_pos_nonneg; lia. Qed.

Lemma wrap_small x : is_uint n x -> wrap n x = x.
Proof using Type. unfold is_uint, wrap; intros H; apply Z.mod_small; exact H. Qed.

Lemma wrap_m1 : wrap n (-1) = 2 ^ n - 1.
Proof using n_pos.
  unfold wrap. pose proof pow2_pos as Hp.
  symmetry; apply (Z.mod_unique_pos _ _ (-1)); lia.
Qed.

(** An unsigned sum either fits or loses exactly one modulus. *)
Lemma wrap_add_cases x y :
  is_uint n x -> is_uint n y ->
  (x + y < 2 ^ n /\ wrap n (x + y) = x + y) \/
  (2 ^ n <= x + y /\ wrap n (x + y) = x + y - 2 ^ n).
Proof using n_pos.
  unfold is_uint, wrap; intros Hx Hy. pose proof pow2_pos as Hp.
  destruct (Z_lt_le_dec (x + y) (2 ^ n)) as [Hlt | Hge].
  - left; split; [exact Hlt | apply Z.mod_small; lia].
  - right; split; [exact Hge |].
    symmetry; apply (Z.mod_unique_pos _ _ 1); lia.
Qed.

(** An unsigned difference either fits or gains exactly one modulus. *)
Lemma wrap_sub_cases x y :
  is_uint n x -> is_uint n y ->
  (y <= x /\ wrap n (x - y) = x - y) \/
  (x < y /\ wrap n (x - y) = x - y + 2 ^ n).
Proof using n_pos.
  unfold is_uint, wrap; intros Hx Hy. pose proof pow2_pos as Hp.
  destruct (Z_le_gt_dec y x) as [Hle | Hgt].
  - left; split; [exact Hle | apply Z.mod_small; lia].
  - right; split; [lia |].
    symmetry; apply (Z.mod_unique_pos _ _ (-1)); lia.
Qed.

(** The all-ones mask absorbs under or, and is neutral under and. *)
Lemma lor_all_ones x : is_uint n x -> Z.lor x (2 ^ n - 1) = 2 ^ n - 1.
Proof using n_pos.
  unfold is_uint; intros Hx.
  replace (2 ^ n - 1) with (Z.ones n) by (rewrite Z.ones_equiv; lia).
  destruct (Z.eq_dec x 0) as [-> | Hnz]; [apply Z.lor_0_l |].
  apply Z.lor_ones_low; [lia |].
  apply Z.log2_lt_pow2; lia.
Qed.

Lemma land_all_ones x : is_uint n x -> Z.land x (2 ^ n - 1) = x.
Proof using n_pos.
  unfold is_uint; intros Hx.
  replace (2 ^ n - 1) with (Z.ones n) by (rewrite Z.ones_equiv; lia).
  rewrite Z.land_ones by lia. apply Z.mod_small; exact Hx.
Qed.

(** The saturating sum, with the mask taken in [int]
    (operands narrower than [int]). *)
Lemma sat_add_promoted x y :
  is_uint n x -> is_uint n y ->
  let res := wrap n (x + y) in
  wrap n (Z.lor res (- b2i (res <? x))) = Z.min (x + y) (2 ^ n - 1).
Proof using n_pos.
  intros Hx Hy res; subst res.
  pose proof pow2_pos as Hp.
  destruct (wrap_add_cases x y Hx Hy) as [[Hlt ->] | [Hge ->]].
  - destruct (Z.ltb_spec (x + y) x) as [Hc | Hc]; [unfold is_uint in *; lia |].
    cbn [b2i Z.opp]. rewrite Z.lor_0_r, wrap_small by (unfold is_uint in *; lia). lia.
  - destruct (Z.ltb_spec (x + y - 2 ^ n) x) as [Hc | Hc]; [| unfold is_uint in *; lia].
    cbn [b2i Z.opp]. rewrite Z.lor_m1_r. change (- (1)) with (-1).
    rewrite wrap_m1. lia.
Qed.

(** The saturating sum, with the mask converted to the unsigned type. *)
Lemma sat_add_unsigned x y :
  is_uint n x -> is_uint n y ->
  let res := wrap n (x + y) in
  wrap n (Z.lor res (wrap n (- b2i (res <? x)))) = Z.min (x + y) (2 ^ n - 1).
Proof using n_pos.
  intros Hx Hy res; subst res.
  pose proof pow2_pos as Hp.
  destruct (wrap_add_cases x y Hx Hy) as [[Hlt ->] | [Hge ->]].
  - destruct (Z.ltb_spec (x + y) x) as [Hc | Hc]; [unfold is_uint in *; lia |].
    cbn [b2i Z.opp]. unfold wrap at 2. rewrite Z.mod_0_l by lia.
    rewrite Z.lor_0_r, wrap_small by (unfold is_uint in *; lia). lia.
  - destruct (Z.ltb_spec (x + y - 2 ^ n) x) as [Hc | Hc]; [| unfold is_uint in *; lia].
    cbn [b2i Z.opp]. rewrite wrap_m1.
    rewrite lor_all_ones by (unfold is_uint in *; lia).
    rewrite wrap_small by (unfold is_uint; lia). lia.
Qed.

Lemma sat_sub_promoted x y :
  is_uint n x -> is_uint n y ->
  let res := wrap n (x - y) in
  wrap n (Z.land res (- b2i (res <=? x))) = Z.max (x - y) 0.
Proof using n_pos.
  intros Hx Hy res; subst res.
  pose proof pow2_pos as Hp.
  destruct (wrap_sub_cases x y Hx Hy) as [[Hle ->] | [Hgt ->]].
  - destruct (Z.leb_spec (x - y) x) as [Hc | Hc]; [| unfold is_uint in *; lia].
    cbn [b2i Z.opp]. rewrite Z.land_m1_r, wrap_small by (unfold is_uint in *; lia). lia.
  - destruct (Z.leb_spec (x - y + 2 ^ n) x) as [Hc | Hc]; [unfold is_uint in *; lia |].
    cbn [b2i Z.opp]. rewrite Z.land_0_r. unfold wrap. rewrite Z.mod_0_l by lia. lia.
Qed.

Lemma sat_sub_unsigned x y :
  is_uint n x -> is_uint n y ->
  let res := wrap n (x - y) in
  wrap n (Z.land res (wrap n (- b2i (res <=? x)))) = Z.max (x - y) 0.
Proof using n_pos.
  intros Hx Hy res; subst res.
  pose proof pow2_pos as Hp.
  destruct (wrap_sub_cases x y Hx Hy) as [[Hle ->] | [Hgt ->]].
  - destruct (Z.leb_spec (x - y) x) as [Hc | Hc]; [| unfold is_uint in *; lia].
    cbn [b2i Z.opp]. rewrite wrap_m1.
    rewrite land_all_ones, wrap_small by (unfold is_uint in *; lia). lia.
  - destruct (Z.leb_spec (x - y + 2 ^ n) x) as [Hc | Hc]; [unfold is_uint in *; lia |].
    cbn [b2i Z.opp]. unfold wrap. rewrite (Z.mod_0_l (2 ^ n)) by lia.
    rewrite Z.land_0_r, Z.mod_0_l by lia. lia.
Qed.

End Wrap.

Section SaturatingArithmetic.
Import CInt Numeric.

(** C1. For every width w of 8, 16, 32 and 64 bits and all unsigned w-bit
    [x] and [y], [sat_add x y] is the exact sum [x + y] clamped to the
    largest w-bit value, [min (x + y) (2^w - 1)].  The 8-bit example
    [sat_add 250 10 = 255] is the instance [sat_add_exact_min_example]. *)
Theorem sat_add_exact_min (w : width) (x y : Z) :
  is_uint (bits w) x -> is_uint (bits w) y ->
  sat_add w x y = Z.min (x + y) (2 ^ bits w - 1).
Proof.
  intros Hx Hy; destruct w; cbn [sat_add bits] in *.
  - apply (sat_add_promoted 8); [lia | exact Hx | exact Hy].
  - apply (sat_add_promoted 16); [lia | exact Hx | exact Hy].
  - apply (sat_add_unsigned 32); [lia | exact Hx | exact Hy].
  - apply (sat_add_unsigned 64); [lia | exact Hx | exact Hy].
Qed.

Lemma sat_add_exact_min_example : sat_add W8 250 10 = 255.
Proof.
  rewrite (sat_add_exact_min W8 250 10).
  - reflexivity.
  - unfold is_uint; simpl; lia.
  - unfold is_uint; simpl; lia.
Defined.

(** C2. For every width w of 8, 16, 32 and 64 bits and all unsigned w-bit
    [x] and [y], [sat_sub x y] is the exact difference [x - y] clamped at
    zero, [max (x - y) 0].  The 8-bit example [sat_sub 5 10 = 0] is the
    instance [sat_sub_exact_max_example]. *)
Theorem sat_sub_exact_max (w : width) (x y : Z) :
  is_uint (bits w) x -> is_uint (bits w) y ->
  sat_sub w x y = Z.max (x - y) 0.
Proof.
  intros Hx Hy; destruct w; cbn [sat_sub bits] in *.
  - apply (sat_sub_promoted 8); [lia | exact Hx | exact Hy].
  - apply (sat_sub_promoted 16); [lia | exact Hx | exact Hy].
  - apply (sat_sub_unsigned 32); [lia | exact Hx | exact Hy].
  - apply (sat_sub_unsigned 64); [lia | exact Hx | exact Hy].
Qed.

Lemma sat_sub_exact_max_example : sat_sub W8 5 10 = 0.
Proof.
  rewrite (sat_sub_exact_max W8 5 10).
  - reflexivity.
  - unfold is_uint; simpl; lia.
  - unfold is_uint; simpl; lia.
Defined.

End SaturatingArithmetic.

(** ** Statuses: the four categories *)

Section StatusCategories.
Import Status.

Variable rodata : Z -> ascii.

Local Open Scope char_scope.

(** No [char] is both ['$'] and ['?']. *)
Lemma dollar_or_question (c : ascii) :
  (c =? "$") = true -> (c =? "?") = true -> False.
Proof.
  intros Hd Hq.
  apply Ascii.eqb_eq in Hd; apply Ascii.eqb_eq in Hq.
  subst c; discriminate Hq.
Qed.

Ltac status_cases z :=
  unfold categories_holding,
    wuffs_base__status__is_complete, wuffs_base__status__is_ok,
    wuffs_base__status__is_warning, wuffs_base__status__is_suspension,
    wuffs_base__status__is_error;
  destruct (Z.eqb z NULL);
  destruct (deref rodata z =? "$") eqn:Hd;
  destruct (deref rodata z =? "?") eqn:Hq;
  try reflexivity;
  exfalso; exact (dollar_or_question _ Hd Hq).

(** C3. For every status value [z], [NULL] or the address of a message in
    static storage, exactly one of [is_ok], [is_warning], [is_suspension]
    and [is_error] is true. *)
Theorem status_categories_partition (z : wuffs_base__status) :
  categories_holding rodata z = 1%nat.
Proof. status_cases z. Qed.

(** C4. For every status value [z], [is_complete z] is true if and only if
    [is_ok z || is_warning z] is. *)
Theorem status_is_complete_ok_or_warning (z : wuffs_base__status) :
  wuffs_base__status__is_complete rodata z =
  wuffs_base__status__is_ok z || wuffs_base__status__is_warning rodata z.
Proof. status_cases z. Qed.

End StatusCategories.

(** The categories on sample messages, stored at address 4096. *)

Example status_null_is_ok :
  Status.wuffs_base__status__is_ok Status.NULL = true /\
  Status.wuffs_base__status__is_complete (Status.rodata_with 4096 "?bad header") Status.NULL = true.
Proof. split; reflexivity. Qed.

Example status_question_is_error :
  Status.wuffs_base__status__is_error (Status.rodata_with 4096 "?bad header") 4096 = true.
Proof. reflexivity. Qed.

Example status_dollar_is_suspension :
  Status.wuffs_base__status__is_suspension (Status.rodata_with 4096 "$short read") 4096 = true /\
  Status.wuffs_base__status__is_complete (Status.rodata_with 4096 "$short read") 4096 = false.
Proof. split; reflexivity. Qed.

Example status_plain_is_warning :
  Status.wuffs_base__status__is_warning (Status.rodata_with 4096 "end of data") 4096 = true /\
  Status.wuffs_base__status__is_complete (Status.rodata_with 4096 "end of data") 4096 = true.
Proof. split; reflexivity. Qed.

(** The empty message starts with its terminating NUL: a warning. *)
Example status_empty_message_is_warning :
  Status.wuffs_base__status__is_warning (Status.rodata_with 4096 EmptyString) 4096 = true.
Proof. reflexivity. Qed.

(** ** Slices: sub-slicing *)

Section SubSlicing.
Import CInt Slice.

Variable SIZE_MAX : Z.

Lemma to_size_t_small x :
  0 <= x <= SIZE_MAX -> to_size_t SIZE_MAX x = x.
Proof. intros H; unfold to_size_t; apply Z.mod_small; lia. Qed.

Lemma to_u64_size_t x :
  size_t_ok SIZE_MAX -> 0 <= x <= SIZE_MAX -> to_u64 x = x.
Proof.
  unfold size_t_ok; intros Hs H; unfold to_u64, wrap.
  apply Z.mod_small; lia.
Qed.

Lemma ptr_add_0 t p : ptr_add t p 0 = p.
Proof. unfold ptr_add; lia. Qed.

(** The three functions on arguments that denote a sub-range. *)

Lemma subslice_i_in_range s i :
  size_t_ok SIZE_MAX -> slice_wf SIZE_MAX s -> 0 <= i <= len s ->
  wuffs_base__slice_u8__subslice_i SIZE_MAX s i =
  {| ptr := ptr_add slice_u8 (ptr s) i; len := len s - i |}.
Proof.
  unfold slice_wf; intros Hs Hwf Hi.
  unfold wuffs_base__slice_u8__subslice_i.
  replace (i <=? SIZE_MAX) with true by (symmetry; apply Z.leb_le; lia).
  replace (i <=? len s) with true by (symmetry; apply Z.leb_le; lia).
  cbn [andb].
  rewrite (to_u64_size_t (len s - i)) by (trivial; lia).
  rewrite to_size_t_small by lia. reflexivity.
Qed.

Lemma subslice_j_in_range s j :
  slice_wf SIZE_MAX s -> 0 <= j <= len s ->
  wuffs_base__slice_u8__subslice_j SIZE_MAX s j =
  {| ptr := ptr s; len := j |}.
Proof.
  unfold slice_wf; intros Hwf Hj.
  unfold wuffs_base__slice_u8__subslice_j.
  replace (j <=? SIZE_MAX) with true by (symmetry; apply Z.leb_le; lia).
  replace (j <=? len s) with true by (symmetry; apply Z.leb_le; lia).
  cbn [andb].
  rewrite to_size_t_small by lia. reflexivity.
Qed.

Lemma subslice_ij_in_range s i j :
  size_t_ok SIZE_MAX -> slice_wf SIZE_MAX s -> 0 <= i <= j -> j <= len s ->
  wuffs_base__slice_u8__subslice_ij SIZE_MAX s i j =
  {| ptr := ptr_add slice_u8 (ptr s) i; len := j - i |}.
Proof.
  unfold slice_wf; intros Hs Hwf Hi Hj.
  unfold wuffs_base__slice_u8__subslice_ij.
  replace (i <=? j) with true by (symmetry; apply Z.leb_le; lia).
  replace (j <=? SIZE_MAX) with true by (symmetry; apply Z.leb_le; lia).
  replace (j <=? len s) with true by (symmetry; apply Z.leb_le; lia).
  cbn [andb].
  rewrite (to_u64_size_t (j - i)) by (trivial; lia).
  rewrite to_size_t_small by lia. reflexivity.
Qed.

(** Each function is either on its guarded branch or returns the empty
    slice. *)
Lemma run_cases (c : subslice_call) (s : slice) :
  (out_of_range s c /\ run SIZE_MAX c s = empty_slice) \/
  (~ out_of_range s c /\
   match c with
   | call_i i => i <= len s
   | call_j j => j <= len s
   | call_ij i j => i <= j <= len s
   end).
Proof.
  destruct c as [i | j | i j]; cbn [out_of_range run].
  - destruct (Z.leb_spec i (len s)) as [Hle | Hgt]; [right; lia | left].
    split; [exact Hgt |].
    unfold wuffs_base__slice_u8__subslice_i.
    replace (i <=? len s) with false by (symmetry; apply Z.leb_gt; exact Hgt).
    rewrite andb_false_r; reflexivity.
  - destruct (Z.leb_spec j (len s)) as [Hle | Hgt]; [right; lia | left].
    split; [exact Hgt |].
    unfold wuffs_base__slice_u8__subslice_j.
    replace (j <=? len s) with false by (symmetry; apply Z.leb_gt; exact Hgt).
    rewrite andb_false_r; reflexivity.
  - unfold wuffs_base__slice_u8__subslice_ij.
    destruct (Z.leb_spec i j) as [Hij | Hij]; cbn [andb].
    + destruct (Z.leb_spec j (len s)) as [Hle | Hgt]; [right; lia | left].
      split; [right; exact Hgt |].
      rewrite andb_false_r; reflexivity.
    + left; split; [left; exact Hij | reflexivity].
Qed.

(** C5. For every slice [s] and every call of [subslice_j] (prefix) with
    [j > s.len], of [subslice_i] (suffix) with [i > s.len], or of
    [subslice_ij] (range) with [i > j] or [j > s.len], the function returns
    a slice, with no error result, that is equal to the empty slice: [NULL]
    pointer and zero length. *)
Theorem subslice_out_of_range_empty (s : slice) (c : subslice_call) :
  out_of_range s c ->
  run SIZE_MAX c s = empty_slice /\ len (run SIZE_MAX c s) = 0.
Proof.
  intros Hout.
  destruct (run_cases c s) as [[_ Hrun] | [Hin _]]; [| contradiction].
  rewrite Hrun; split; reflexivity.
Qed.

(** C6. For every well-formed slice [s], [subslice_j s s.len] (prefix) and
    [subslice_i s 0] (suffix) are [s] itself, pointer and length. *)
Theorem subslice_identity (s : slice) :
  size_t_ok SIZE_MAX -> slice_wf SIZE_MAX s ->
  wuffs_base__slice_u8__subslice_j SIZE_MAX s (len s) = s /\
  wuffs_base__slice_u8__subslice_i SIZE_MAX s 0 = s.
Proof.
  intros Hs Hwf. pose proof Hwf as Hlen; unfold slice_wf in Hlen.
  split.
  - rewrite subslice_j_in_range by (trivial; lia).
    destruct s; reflexivity.
  - rewrite subslice_i_in_range by (trivial; lia).
    rewrite ptr_add_0, Z.sub_0_r. destruct s; reflexivity.
Qed.

(** C7. For a [wuffs_base__slice_u8] [s] of length 10, [subslice_ij s 3 7]
    has length 4 and starts 3 elements after [s.ptr]; [subslice_ij _ 0 4] of
    that result is the result itself, pointer and length. *)
Theorem subslice_ij_scenario (p : Z) :
  size_t_ok SIZE_MAX ->
  let s := {| ptr := p; len := 10 |} in
  let r := wuffs_base__slice_u8__subslice_ij SIZE_MAX s 3 7 in
  ptr r = ptr_add slice_u8 (ptr s) 3 /\
  ptr r = p + 3 /\
  len r = 4 /\
  wuffs_base__slice_u8__subslice_ij SIZE_MAX r 0 4 = r.
Proof.
  intros Hs s r. pose proof Hs as Hmax; unfold size_t_ok in Hmax.
  assert (Hr : r = {| ptr := ptr_add slice_u8 p 3; len := 4 |}).
  { subst r s. rewrite subslice_ij_in_range; unfold slice_wf; cbn [len ptr]; trivial; lia. }
  rewrite Hr; cbn [ptr len].
  split; [reflexivity |].
  split; [unfold ptr_add; cbn [elem_size]; lia |].
  split; [reflexivity |].
  rewrite subslice_ij_in_range; unfold slice_wf; cbn [len ptr]; trivial; try lia.
  rewrite ptr_add_0; reflexivity.
Qed.

(** C10. For every well-formed slice [s] and every call of [subslice_i],
    [subslice_j] or [subslice_ij] on [uint64_t] arguments, the result
    is no longer than [s], and it is the empty slice (all fields zero) or
    is contained in [s]: its pointer is [s.ptr] plus an offset of 0 to
    [s.len] elements, its length is at most [s.len], and offset plus length
    is at most [s.len]. *)
Theorem subslice_contained (s : slice) (c : subslice_call) :
  size_t_ok SIZE_MAX -> slice_wf SIZE_MAX s -> call_typed c ->
  len (run SIZE_MAX c s) <= len s /\
  (run SIZE_MAX c s = empty_slice \/ contained_in s (run SIZE_MAX c s)).
Proof.
  intros Hs Hwf Hty. pose proof Hwf as Hlen; unfold slice_wf in Hlen.
  destruct (run_cases c s) as [[_ Hrun] | [_ Hin]].
  { rewrite Hrun; split; [cbn [len empty_slice]; lia | left; reflexivity]. }
  assert (Hc : contained_in s (run SIZE_MAX c s)).
  { destruct c as [i | j | i j]; cbn [run call_typed] in *; unfold is_uint in Hty.
    - exists i. rewrite subslice_i_in_range by (trivial; lia).
      unfold window_at; cbn [ptr len]; repeat split; lia.
    - exists 0. rewrite subslice_j_in_range by (trivial; lia).
      unfold window_at; cbn [ptr len]; rewrite ptr_add_0; repeat split; lia.
    - exists i. rewrite subslice_ij_in_range by (trivial; lia).
      unfold window_at; cbn [ptr len]; repeat split; lia. }
  split; [| right; exact Hc].
  destruct Hc as [off (_ & _ & Hle & _)]; lia.
Qed.

End SubSlicing.

Section SubSlicingInstances.
Import CInt Slice.

Lemma subslice_out_of_range_empty_witness :
  out_of_range buf10 (call_ij 7 3) /\
  run size_max_64 (call_ij 7 3) buf10 = empty_slice /\
  len (run size_max_64 (call_ij 7 3) buf10) = 0.
Proof.
  split.
  - left; lia.
  - apply (subslice_out_of_range_empty size_max_64 buf10 (call_ij 7 3)).
    left; lia.
Defined.

Lemma subslice_identity_witness :
  wuffs_base__slice_u8__subslice_j size_max_64 buf10 (len buf10) = buf10 /\
  wuffs_base__slice_u8__subslice_i size_max_64 buf10 0 = buf10.
Proof.
  apply (subslice_identity size_max_64 buf10).
  - unfold size_t_ok, size_max_64; lia.
  - unfold slice_wf, size_max_64, buf10; cbn [len]; lia.
Defined.

Lemma subslice_ij_scenario_witness :
  let r := wuffs_base__slice_u8__subslice_ij size_max_64 buf10 3 7 in
  ptr r = ptr_add slice_u8 4096 3 /\
  ptr r = 4096 + 3 /\
  len r = 4 /\
  wuffs_base__slice_u8__subslice_ij size_max_64 r 0 4 = r.
Proof.
  apply (subslice_ij_scenario size_max_64 4096).
  unfold size_t_ok, size_max_64; lia.
Defined.

Lemma subslice_contained_witness :
  len (run size_max_64 (call_ij 3 7) buf10) <= len buf10 /\
  (run size_max_64 (call_ij 3 7) buf10 = empty_slice \/
   contained_in buf10 (run size_max_64 (call_ij 3 7) buf10)).
Proof.
  apply (subslice_contained size_max_64 buf10 (call_ij 3 7)).
  - unfold size_t_ok, size_max_64; lia.
  - unfold slice_wf, size_max_64, buf10; cbn [len]; lia.
  - cbn [call_typed]; unfold is_uint; split; lia.
Defined.

(** The sub-slicing functions on sample arguments. *)

Example subslice_ij_3_7 :
  wuffs_base__slice_u8__subslice_ij size_max_64 buf10 3 7 = {| ptr := 4099; len := 4 |}.
Proof. reflexivity. Qed.

Example subslice_i_at_len :
  wuffs_base__slice_u8__subslice_i size_max_64 buf10 10 = {| ptr := 4106; len := 0 |}.
Proof. reflexivity. Qed.

Example subslice_j_past_len :
  wuffs_base__slice_u8__subslice_j size_max_64 buf10 11 = empty_slice.
Proof. reflexivity. Qed.

(** On a 32-bit platform an index above [SIZE_MAX] is out of range. *)
Example subslice_i_above_size_max :
  wuffs_base__slice_u8__subslice_i size_max_32 buf10 (2 ^ 32) = empty_slice.
Proof. reflexivity. Qed.

End SubSlicingInstances.

(** ** Version: the packed representation *)

Section VersionLayout.
Import CInt Version.

(** An unsigned value of [w] bits has no bit set at or above [w]. *)
Lemma uint_high_bits (w a k : Z) :
  0 <= w -> is_uint w a -> w <= k -> Z.testbit a k = false.
Proof.
  unfold is_uint; intros Hw Ha Hk.
  destruct (Z.eq_dec a 0) as [-> | Hnz]; [apply Z.bits_0 |].
  apply Z.bits_above_log2; [lia |].
  apply Z.lt_le_trans with w; [apply Z.log2_lt_pow2; lia | exact Hk].
Qed.

(** A shift that stays below [2^64] is not truncated. *)
Lemma to_u64_shiftl (a n w : Z) :
  0 <= n -> 0 <= w -> n + w <= 64 -> is_uint w a ->
  to_u64 (Z.shiftl a n) = Z.shiftl a n.
Proof.
  unfold is_uint; intros Hn Hw Hnw Ha.
  unfold to_u64, wrap. rewrite Z.shiftl_mul_pow2 by exact Hn.
  apply Z.mod_small.
  assert (Hpn : 0 < 2 ^ n) by (apply Z.pow_pos_nonneg; lia).
  assert (Hle : 2 ^ (n + w) <= 2 ^ 64) by (apply Z.pow_le_mono_r; lia).
  rewrite Z.pow_add_r in Hle by lia.
  split; [apply Z.mul_nonneg_nonneg; lia | nia].
Qed.

(** The bits a conversion to [uint64_t] keeps. *)
Lemma to_u64_bits (x k : Z) :
  0 <= k -> Z.testbit (to_u64 x) k = (k <? 64) && Z.testbit x k.
Proof.
  intros Hk; unfold to_u64, wrap.
  destruct (Z.ltb_spec k 64) as [Hlo | Hhi]; cbn [andb].
  - apply Z.mod_pow2_bits_low; lia.
  - apply Z.mod_pow2_bits_high; lia.
Qed.

(** *** The layout determines the value *)

Lemma fields_compose (v : Z) :
  v = Z.lor (Z.lor (Z.shiftl (major_of v) 32) (Z.shiftl (minor_of v) 16))
        (patch_of v).
Proof.
  unfold major_of, minor_of, patch_of.
  apply Z.bits_inj'; intros k Hk.
  rewrite !Z.lor_spec, !Z.shiftl_spec, !Z.land_spec by lia.
  destruct (Z_lt_le_dec k 16) as [H16 | H16].
  - rewrite (Z.testbit_neg_r (Z.shiftr v 32) (k - 32)) by lia.
    rewrite (Z.testbit_neg_r (Z.shiftr v 16) (k - 16)) by lia.
    rewrite (Z.ones_spec_low 16 k) by lia.
    cbn [orb andb]. rewrite andb_true_r; reflexivity.
  - rewrite (Z.ones_spec_high 16 k), andb_false_r, orb_false_r by lia.
    rewrite (Z.shiftr_spec v 16 (k - 16)) by lia.
    replace (k - 16 + 16) with k by lia.
    destruct (Z_lt_le_dec k 32) as [H32 | H32].
    + rewrite (Z.testbit_neg_r (Z.shiftr v 32) (k - 32)) by lia.
      rewrite (Z.ones_spec_low 16 (k - 16)) by lia.
      cbn [orb]. rewrite andb_true_r; reflexivity.
    + rewrite (Z.shiftr_spec v 32 (k - 32)) by lia.
      replace (k - 32 + 32) with k by lia.
      rewrite (Z.ones_spec_high 16 (k - 16)), andb_false_r, orb_false_r by lia.
      reflexivity.
Qed.

Lemma fields_in_range (v : Z) :
  is_uint 64 v ->
  is_uint 32 (major_of v) /\ is_uint 16 (minor_of v) /\ is_uint 16 (patch_of v).
Proof.
  unfold is_uint, major_of, minor_of, patch_of; intros Hv.
  rewrite !Z.land_ones, !Z.shiftr_div_pow2 by lia.
  change (2 ^ 32) with 4294967296.
  change (2 ^ 16) with 65536.
  change (2 ^ 64) with 18446744073709551616 in Hv.
  Z.to_euclidean_division_equations; lia.
Qed.

Lemma fields_zero (v : Z) : work_in_progress v = true <-> v = 0.
Proof.
  unfold work_in_progress. rewrite !andb_true_iff, !Z.eqb_eq.
  split.
  - intros [[Hmaj Hmin] Hpat].
    rewrite (fields_compose v), Hmaj, Hmin, Hpat. reflexivity.
  - intros ->. repeat split; reflexivity.
Qed.

Variables major minor patch : Z.
Hypothesis major_u32 : is_uint 32 major.
Hypothesis minor_u16 : is_uint 16 minor.
Hypothesis patch_u16 : is_uint 16 patch.

(** *** The composition by a shift of 32 *)

Let shift_32 : Z :=
  Z.lor (Z.lor (Z.shiftl major 32) (Z.shiftl minor 16)) patch.

Lemma major_of_shift_32 : major_of shift_32 = major.
Proof using minor_u16 patch_u16.
  unfold shift_32, major_of.
  apply Z.bits_inj'; intros k Hk.
  rewrite Z.shiftr_spec, !Z.lor_spec, !Z.shiftl_spec by lia.
  rewrite (uint_high_bits 16 minor), (uint_high_bits 16 patch), !orb_false_r
    by (trivial; lia).
  f_equal; lia.
Qed.

Lemma minor_of_shift_32 : minor_of shift_32 = minor.
Proof using minor_u16 patch_u16.
  unfold shift_32, minor_of.
  apply Z.bits_inj'; intros k Hk.
  rewrite Z.land_spec, Z.shiftr_spec, !Z.lor_spec, !Z.shiftl_spec by lia.
  rewrite (uint_high_bits 16 patch), orb_false_r by (trivial; lia).
  replace (k + 16 - 16) with k by lia.
  destruct (Z_lt_le_dec k 16) as [Hlo | Hhi].
  - rewrite Z.ones_spec_low, andb_true_r by lia.
    rewrite (Z.testbit_neg_r major) by lia. reflexivity.
  - rewrite Z.ones_spec_high, andb_false_r by lia.
    symmetry; apply (uint_high_bits 16); trivial; lia.
Qed.

Lemma patch_of_shift_32 : patch_of shift_32 = patch.
Proof using minor_u16 patch_u16.
  unfold shift_32, patch_of.
  apply Z.bits_inj'; intros k Hk.
  rewrite Z.land_spec, !Z.lor_spec.
  destruct (Z_lt_le_dec k 16) as [Hlo | Hhi].
  - rewrite Z.ones_spec_low, andb_true_r by lia.
    rewrite !Z.shiftl_spec by lia.
    rewrite (Z.testbit_neg_r major), (Z.testbit_neg_r minor) by lia. reflexivity.
  - rewrite Z.ones_spec_high, andb_false_r by lia.
    symmetry; apply (uint_high_bits 16); trivial; lia.
Qed.

Lemma shift_32_is_u64 : is_uint 64 shift_32.
Proof using major_u32 minor_u16 patch_u16.
  pose proof major_of_shift_32 as Hmaj.
  pose proof minor_of_shift_32 as Hmin.
  pose proof patch_of_shift_32 as Hpat.
  unfold major_of, minor_of, patch_of in *.
  rewrite Z.land_ones in Hmin, Hpat by lia.
  rewrite Z.shiftr_div_pow2 in Hmaj, Hmin by lia.
  unfold is_uint in *.
  set (v := shift_32) in *. clearbody v.
  change (2 ^ 32) with 4294967296 in *.
  change (2 ^ 16) with 65536 in *.
  change (2 ^ 64) with 18446744073709551616.
  Z.to_euclidean_division_equations; lia.
Qed.

(** *** The composition by a shift of 48 *)

(** Above the low 32 bits, [spec_pack] holds the low 16 bits of [major],
    16 positions up. *)
Lemma major_of_spec_pack_bits (k : Z) :
  0 <= k ->
  Z.testbit (major_of (spec_pack major minor patch)) k =
  (16 <=? k) && (k <? 32) && Z.testbit major (k - 16).
Proof using minor_u16 patch_u16.
  intros Hk. unfold major_of, spec_pack.
  rewrite Z.shiftr_spec, !Z.lor_spec, !to_u64_bits, !Z.shiftl_spec by lia.
  rewrite (uint_high_bits 16 minor), (uint_high_bits 16 patch)
    by (trivial; lia).
  rewrite andb_false_r, !orb_false_r.
  replace (k + 32 - 48) with (k - 16) by lia.
  destruct (Z.leb_spec 16 k) as [H16 | H16];
    destruct (Z.ltb_spec (k + 32) 64); destruct (Z.ltb_spec k 32);
    cbn [andb]; try reflexivity; try lia.
  apply Z.testbit_neg_r; lia.
Qed.

Lemma major_of_spec_pack_iff :
  major_of (spec_pack major minor patch) = major <-> major = 0.
Proof using minor_u16 patch_u16.
  split.
  - intros Heq.
    assert (Hbits : forall k, 0 <= k ->
              Z.testbit major k =
              (16 <=? k) && (k <? 32) && Z.testbit major (k - 16)).
    { intros k Hk. rewrite <- major_of_spec_pack_bits by exact Hk.
      rewrite Heq; reflexivity. }
    assert (Hlow : forall k, 0 <= k < 16 -> Z.testbit major k = false).
    { intros k Hk. rewrite Hbits by lia.
      destruct (Z.leb_spec 16 k); [lia | reflexivity]. }
    apply Z.bits_inj'; intros k Hk. rewrite Z.bits_0, Hbits by exact Hk.
    destruct (Z.leb_spec 16 k); destruct (Z.ltb_spec k 32);
      cbn [andb]; try reflexivity.
    apply Hlow; lia.
  - intros Hz. apply Z.bits_inj'; intros k Hk.
    rewrite major_of_spec_pack_bits by exact Hk.
    rewrite Hz, !Z.bits_0, andb_false_r. reflexivity.
Qed.

Lemma spec_pack_low_32 :
  minor_of (spec_pack major minor patch) = minor /\
  patch_of (spec_pack major minor patch) = patch.
Proof using minor_u16 patch_u16.
  unfold minor_of, patch_of, spec_pack.
  rewrite (to_u64_shiftl minor 16 16) by (trivial; lia).
  split; apply Z.bits_inj'; intros k Hk.
  - rewrite Z.land_spec, Z.shiftr_spec, !Z.lor_spec, to_u64_bits by lia.
    rewrite !Z.shiftl_spec by lia.
    rewrite (uint_high_bits 16 patch), orb_false_r by (trivial; lia).
    replace (k + 16 - 16) with k by lia.
    destruct (Z_lt_le_dec k 16) as [Hlo | Hhi].
    + rewrite Z.ones_spec_low, andb_true_r by lia.
      rewrite (Z.testbit_neg_r major), andb_false_r by lia. reflexivity.
    + rewrite Z.ones_spec_high, andb_false_r by lia.
      symmetry; apply (uint_high_bits 16); trivial; lia.
  - rewrite Z.land_spec, !Z.lor_spec, to_u64_bits by lia.
    destruct (Z_lt_le_dec k 16) as [Hlo | Hhi].
    + rewrite Z.ones_spec_low, andb_true_r by lia.
      rewrite !Z.shiftl_spec by lia.
      rewrite (Z.testbit_neg_r major), (Z.testbit_neg_r minor), andb_false_r
        by lia.
      reflexivity.
    + rewrite Z.ones_spec_high, andb_false_r by lia.
      symmetry; apply (uint_high_bits 16); trivial; lia.
Qed.


End VersionLayout.



(** ** Saturating arithmetic: algebra *)

Section SaturatingAlgebra.
Import CInt Numeric MinMax.

Variable w : width.

Lemma umax_pos : 0 < umax w.
Proof. unfold umax; destruct w; cbn [bits]; lia. Qed.

Lemma is_uint_umax x : is_uint (bits w) x <-> 0 <= x <= umax w.
Proof. unfold is_uint, umax; lia. Qed.

(** The two saturating functions in closed form. *)

Lemma sat_add_min x y :
  is_uint (bits w) x -> is_uint (bits w) y ->
  sat_add w x y = Z.min (x + y) (umax w).
Proof.
  intros Hx Hy; unfold umax; destruct w; cbn [sat_add bits] in *.
  - apply (sat_add_promoted 8); [lia | exact Hx | exact Hy].
  - apply (sat_add_promoted 16); [lia | exact Hx | exact Hy].
  - apply (sat_add_unsigned 32); [lia | exact Hx | exact Hy].
  - apply (sat_add_unsigned 64); [lia | exact Hx | exact Hy].
Qed.

Lemma sat_sub_max x y :
  is_uint (bits w) x -> is_uint (bits w) y ->
  sat_sub w x y = Z.max (x - y) 0.
Proof.
  intros Hx Hy; destruct w; cbn [sat_sub bits] in *.
  - apply (sat_sub_promoted 8); [lia | exact Hx | exact Hy].
  - apply (sat_sub_promoted 16); [lia | exact Hx | exact Hy].
  - apply (sat_sub_unsigned 32); [lia | exact Hx | exact Hy].
  - apply (sat_sub_unsigned 64); [lia | exact Hx | exact Hy].
Qed.

Lemma sat_add_uint x y :
  is_uint (bits w) x -> is_uint (bits w) y -> is_uint (bits w) (sat_add w x y).
Proof.
  intros Hx Hy. rewrite sat_add_min by assumption.
  apply is_uint_umax in Hx, Hy. apply is_uint_umax. lia.
Qed.

Lemma sat_sub_uint x y :
  is_uint (bits w) x -> is_uint (bits w) y -> is_uint (bits w) (sat_sub w x y).
Proof.
  intros Hx Hy. rewrite sat_sub_max by assumption.
  apply is_uint_umax in Hx, Hy. apply is_uint_umax. lia.
Qed.

Lemma u_min_Zmin x y : u_min w x y = Z.min x y.
Proof.
  destruct w; cbn [u_min];
    unfold wuffs_base__u8__min, wuffs_base__u16__min,
      wuffs_base__u32__min, wuffs_base__u64__min;
    destruct (Z.ltb_spec x y); lia.
Qed.

Lemma u_max_Zmax x y : u_max w x y = Z.max x y.
Proof.
  destruct w; cbn [u_max];
    unfold wuffs_base__u8__max, wuffs_base__u16__max,
      wuffs_base__u32__max, wuffs_base__u64__max;
    rewrite Z.gtb_ltb; destruct (Z.ltb_spec y x); lia.
Qed.

(** Rewrites every operation on in-range operands to its closed form and
    leaves linear arithmetic. *)
Ltac sat_arith :=
  repeat match goal with
  | H : is_uint (bits w) _ |- _ => apply is_uint_umax in H
  end;
  pose proof umax_pos; lia.

(** X1. At every width [min] and [max] return one of their two arguments,
    [min] one that is no larger than either and [max] one that is no smaller
    than either, and together they return both: [min + max = x + y]. *)
Theorem min_max_select (x y : Z) :
  (u_min w x y = x \/ u_min w x y = y) /\
  u_min w x y <= x /\ u_min w x y <= y /\
  (u_max w x y = x \/ u_max w x y = y) /\
  x <= u_max w x y /\ y <= u_max w x y /\
  u_min w x y + u_max w x y = x + y.
Proof. rewrite u_min_Zmin, u_max_Zmax. lia. Qed.

(** X2. [sat_add] is commutative, although the code compares the wrapped
    sum with its first operand only. *)
Theorem sat_add_comm (x y : Z) :
  is_uint (bits w) x -> is_uint (bits w) y ->
  sat_add w x y = sat_add w y x.
Proof. intros Hx Hy. rewrite !sat_add_min by assumption. lia. Qed.

(** X3. [sat_add] is associative: a chain of saturating additions is the
    exact sum clamped once, in whatever order it is bracketed. *)
Theorem sat_add_assoc (x y z : Z) :
  is_uint (bits w) x -> is_uint (bits w) y -> is_uint (bits w) z ->
  sat_add w (sat_add w x y) z = sat_add w x (sat_add w y z) /\
  sat_add w (sat_add w x y) z = Z.min (x + y + z) (umax w).
Proof.
  intros Hx Hy Hz.
  rewrite (sat_add_min (sat_add w x y) z), (sat_add_min x (sat_add w y z))
    by auto using sat_add_uint.
  rewrite !sat_add_min by assumption.
  sat_arith.
Qed.

(** X4. The result of [sat_add] is a value of the width that is no smaller
    than either operand, and the result of [sat_sub] is a value of the width
    that is no larger than its first operand: neither wraps around. *)
Theorem sat_results_bounded (x y : Z) :
  is_uint (bits w) x -> is_uint (bits w) y ->
  is_uint (bits w) (sat_add w x y) /\
  x <= sat_add w x y /\ y <= sat_add w x y /\
  is_uint (bits w) (sat_sub w x y) /\
  sat_sub w x y <= x.
Proof.
  intros Hx Hy.
  pose proof (sat_add_uint x y Hx Hy) as Ha.
  pose proof (sat_sub_uint x y Hx Hy) as Hs.
  repeat split; try apply Ha; try apply Hs;
    rewrite ?sat_add_min, ?sat_sub_max by assumption; sat_arith.
Qed.

(** X5. [sat_add] returns the exact sum exactly when the sum fits the width,
    and the largest value of the width otherwise; [sat_sub] returns 0
    exactly when [x <= y], and the exact difference otherwise. *)
Theorem sat_exact_or_clamped (x y : Z) :
  is_uint (bits w) x -> is_uint (bits w) y ->
  (sat_add w x y = x + y <-> x + y <= umax w) /\
  (umax w < x + y -> sat_add w x y = umax w) /\
  (sat_sub w x y = 0 <-> x <= y) /\
  (y < x -> sat_sub w x y = x - y).
Proof.
  intros Hx Hy. rewrite sat_add_min, sat_sub_max by assumption.
  repeat split; sat_arith.
Qed.

(** X6. Adding back what was subtracted gives the larger operand:
    [sat_add (sat_sub x y) y = max x y]. *)
Theorem sat_add_sat_sub_is_max (x y : Z) :
  is_uint (bits w) x -> is_uint (bits w) y ->
  sat_add w (sat_sub w x y) y = u_max w x y.
Proof.
  intros Hx Hy.
  rewrite sat_add_min by auto using sat_sub_uint.
  rewrite sat_sub_max, u_max_Zmax by assumption.
  sat_arith.
Qed.

(** X7. Subtracting the saturated difference gives the smaller operand:
    [sat_sub x (sat_sub x y) = min x y]. *)
Theorem sat_sub_sat_sub_is_min (x y : Z) :
  is_uint (bits w) x -> is_uint (bits w) y ->
  sat_sub w x (sat_sub w x y) = u_min w x y.
Proof.
  intros Hx Hy.
  rewrite (sat_sub_max x (sat_sub w x y)) by auto using sat_sub_uint.
  rewrite sat_sub_max, u_min_Zmin by assumption.
  sat_arith.
Qed.

(** X8. Subtracting what was added gives the first operand back when the
    sum did not saturate, and less than it when it did:
    [sat_sub (sat_add x y) y = min x (umax - y)]. *)
Theorem sat_sub_sat_add_roundtrip (x y : Z) :
  is_uint (bits w) x -> is_uint (bits w) y ->
  sat_sub w (sat_add w x y) y = u_min w x (umax w - y) /\
  (x + y <= umax w -> sat_sub w (sat_add w x y) y = x).
Proof.
  intros Hx Hy.
  rewrite (sat_sub_max (sat_add w x y) y) by auto using sat_add_uint.
  rewrite sat_add_min, u_min_Zmin by assumption.
  split; sat_arith.
Qed.

(** X9. [sat_add] is monotone in both operands; [sat_sub] is monotone in
    its first operand and antitone in its second. *)
Theorem sat_monotone (x x' y y' : Z) :
  is_uint (bits w) x -> is_uint (bits w) x' ->
  is_uint (bits w) y -> is_uint (bits w) y' ->
  x <= x' -> y <= y' ->
  sat_add w x y <= sat_add w x' y' /\
  sat_sub w x y' <= sat_sub w x' y.
Proof.
  intros Hx Hx' Hy Hy' Hxx Hyy.
  rewrite !sat_add_min, !sat_sub_max by assumption.
  split; sat_arith.
Qed.

(** X10. Zero is neutral for [sat_add] and for [sat_sub] on the right, the
    largest value of the width absorbs under [sat_add], zero absorbs on the
    left of [sat_sub], and [sat_sub x x = 0]. *)
Theorem sat_units (x : Z) :
  is_uint (bits w) x ->
  sat_add w x 0 = x /\ sat_add w 0 x = x /\
  sat_add w x (umax w) = umax w /\ sat_add w (umax w) x = umax w /\
  sat_sub w x 0 = x /\ sat_sub w 0 x = 0 /\ sat_sub w x x = 0 /\
  sat_sub w (umax w) x = umax w - x.
Proof.
  intros Hx.
  assert (H0 : is_uint (bits w) 0) by (apply is_uint_umax; pose proof umax_pos; lia).
  assert (Hm : is_uint (bits w) (umax w)) by (apply is_uint_umax; pose proof umax_pos; lia).
  rewrite !sat_add_min, !sat_sub_max by assumption.
  repeat split; sat_arith.
Qed.

(** X11. The two one-sided saturated differences add up to the distance
    between the operands, which is also [max - min]:
    [sat_add (sat_sub x y) (sat_sub y x) = |x - y|
     = sat_sub (max x y) (min x y)]. *)
Theorem sat_sub_distance (x y : Z) :
  is_uint (bits w) x -> is_uint (bits w) y ->
  sat_add w (sat_sub w x y) (sat_sub w y x) = Z.abs (x - y) /\
  sat_sub w (u_max w x y) (u_min w x y) = Z.abs (x - y).
Proof.
  intros Hx Hy.
  rewrite sat_add_min by auto using sat_sub_uint.
  rewrite (sat_sub_max (u_max w x y) (u_min w x y))
    by (rewrite ?u_min_Zmin, ?u_max_Zmax; apply is_uint_umax;
        apply is_uint_umax in Hx, Hy; lia).
  rewrite !sat_sub_max, u_min_Zmin, u_max_Zmax by assumption.
  split; sat_arith.
Qed.

End SaturatingAlgebra.

Lemma sat_add_comm_witness : Numeric.sat_add CInt.W8 250 10 = Numeric.sat_add CInt.W8 10 250.
Proof. apply (sat_add_comm CInt.W8 250 10); unfold CInt.is_uint; simpl; lia. Defined.

Lemma sat_add_assoc_witness :
  Numeric.sat_add CInt.W16 (Numeric.sat_add CInt.W16 65000 500) 100 =
  Numeric.sat_add CInt.W16 65000 (Numeric.sat_add CInt.W16 500 100) /\
  Numeric.sat_add CInt.W16 (Numeric.sat_add CInt.W16 65000 500) 100 =
  Z.min (65000 + 500 + 100) (CInt.umax CInt.W16).
Proof. apply (sat_add_assoc CInt.W16 65000 500 100); unfold CInt.is_uint; simpl; lia. Defined.

Lemma sat_results_bounded_witness :
  CInt.is_uint (CInt.bits CInt.W8) (Numeric.sat_add CInt.W8 200 100) /\
  200 <= Numeric.sat_add CInt.W8 200 100 /\ 100 <= Numeric.sat_add CInt.W8 200 100 /\
  CInt.is_uint (CInt.bits CInt.W8) (Numeric.sat_sub CInt.W8 200 100) /\
  Numeric.sat_sub CInt.W8 200 100 <= 200.
Proof. apply (sat_results_bounded CInt.W8 200 100); unfold CInt.is_uint; simpl; lia. Defined.

Lemma sat_exact_or_clamped_witness :
  (Numeric.sat_add CInt.W32 4000000000 500000000 = 4000000000 + 500000000 <->
   4000000000 + 500000000 <= CInt.umax CInt.W32) /\
  (CInt.umax CInt.W32 < 4000000000 + 500000000 ->
   Numeric.sat_add CInt.W32 4000000000 500000000 = CInt.umax CInt.W32) /\
  (Numeric.sat_sub CInt.W32 4000000000 500000000 = 0 <-> 4000000000 <= 500000000) /\
  (500000000 < 4000000000 ->
   Numeric.sat_sub CInt.W32 4000000000 500000000 = 4000000000 - 500000000).
Proof.
  apply (sat_exact_or_clamped CInt.W32 4000000000 500000000);
    unfold CInt.is_uint; simpl; lia.
Defined.

Lemma sat_add_sat_sub_is_max_witness :
  Numeric.sat_add CInt.W8 (Numeric.sat_sub CInt.W8 5 10) 10 = MinMax.u_max CInt.W8 5 10.
Proof. apply (sat_add_sat_sub_is_max CInt.W8 5 10); unfold CInt.is_uint; simpl; lia. Defined.

Lemma sat_sub_sat_sub_is_min_witness :
  Numeric.sat_sub CInt.W8 5 (Numeric.sat_sub CInt.W8 5 10) = MinMax.u_min CInt.W8 5 10.
Proof. apply (sat_sub_sat_sub_is_min CInt.W8 5 10); unfold CInt.is_uint; simpl; lia. Defined.

Lemma sat_sub_sat_add_roundtrip_witness :
  Numeric.sat_sub CInt.W8 (Numeric.sat_add CInt.W8 250 10) 10 =
    MinMax.u_min CInt.W8 250 (CInt.umax CInt.W8 - 10) /\
  (250 + 10 <= CInt.umax CInt.W8 ->
   Numeric.sat_sub CInt.W8 (Numeric.sat_add CInt.W8 250 10) 10 = 250).
Proof. apply (sat_sub_sat_add_roundtrip CInt.W8 250 10); unfold CInt.is_uint; simpl; lia. Defined.

Lemma sat_monotone_witness :
  Numeric.sat_add CInt.W8 100 50 <= Numeric.sat_add CInt.W8 200 60 /\
  Numeric.sat_sub CInt.W8 100 60 <= Numeric.sat_sub CInt.W8 200 50.
Proof.
  apply (sat_monotone CInt.W8 100 200 50 60); unfold CInt.is_uint; simpl; lia.
Defined.

Lemma sat_units_witness :
  Numeric.sat_add CInt.W64 7 0 = 7 /\ Numeric.sat_add CInt.W64 0 7 = 7 /\
  Numeric.sat_add CInt.W64 7 (CInt.umax CInt.W64) = CInt.umax CInt.W64 /\
  Numeric.sat_add CInt.W64 (CInt.umax CInt.W64) 7 = CInt.umax CInt.W64 /\
  Numeric.sat_sub CInt.W64 7 0 = 7 /\ Numeric.sat_sub CInt.W64 0 7 = 0 /\
  Numeric.sat_sub CInt.W64 7 7 = 0 /\
  Numeric.sat_sub CInt.W64 (CInt.umax CInt.W64) 7 = CInt.umax CInt.W64 - 7.
Proof. apply (sat_units CInt.W64 7); unfold CInt.is_uint; simpl; lia. Defined.

Lemma sat_sub_distance_witness :
  Numeric.sat_add CInt.W8 (Numeric.sat_sub CInt.W8 5 10) (Numeric.sat_sub CInt.W8 10 5) =
    Z.abs (5 - 10) /\
  Numeric.sat_sub CInt.W8 (MinMax.u_max CInt.W8 5 10) (MinMax.u_min CInt.W8 5 10) =
    Z.abs (5 - 10).
Proof. apply (sat_sub_distance CInt.W8 5 10); unfold CInt.is_uint; simpl; lia. Defined.

(** ** Statuses: completeness *)

Section StatusCompleteness.
Import Status.

Variable rodata : Z -> ascii.

(** X12. A status is incomplete exactly when it is a suspension or an
    error: [is_complete z = !(is_suspension z || is_error z)], and a status
    is never both a suspension and an error. *)
Theorem status_incomplete_suspension_or_error (z : wuffs_base__status) :
  wuffs_base__status__is_complete rodata z =
    negb (wuffs_base__status__is_suspension rodata z ||
          wuffs_base__status__is_error rodata z) /\
  wuffs_base__status__is_suspension rodata z &&
    wuffs_base__status__is_error rodata z = false.
Proof.
  unfold wuffs_base__status__is_complete, wuffs_base__status__is_suspension,
    wuffs_base__status__is_error.
  destruct (Z.eqb z NULL);
    destruct (deref rodata z =? "$")%char eqn:Hd;
    destruct (deref rodata z =? "?")%char eqn:Hq;
    cbn [negb andb orb]; try (split; reflexivity).
  exfalso; exact (dollar_or_question _ Hd Hq).
Qed.

End StatusCompleteness.

(** ** Slices: how sub-slicing composes *)

Section SubSliceAlgebra.
Import CInt Slice Numeric.

Variable SIZE_MAX : Z.
Hypothesis size_ok : size_t_ok SIZE_MAX.

Lemma run_out_of_range (c : subslice_call) (s : slice) :
  out_of_range s c -> run SIZE_MAX c s = empty_slice.
Proof using Type.
  intros Hout.
  destruct (run_cases SIZE_MAX c s) as [[_ Hrun] | [Hin _]];
    [exact Hrun | contradiction].
Qed.

Lemma empty_slice_wf : slice_wf SIZE_MAX empty_slice.
Proof using size_ok.
  unfold slice_wf, size_t_ok in *; cbn [len empty_slice]; lia.
Qed.

Lemma slice_eq (p q l m : Z) :
  p = q -> l = m -> {| ptr := p; len := l |} = {| ptr := q; len := m |}.
Proof using Type. intros -> ->; reflexivity. Qed.

(** The three functions with the [SIZE_MAX] test and the conversions
    resolved, on a well-formed slice. *)

Lemma subslice_i_guard s i :
  slice_wf SIZE_MAX s -> 0 <= i ->
  wuffs_base__slice_u8__subslice_i SIZE_MAX s i =
  if i <=? len s
  then {| ptr := ptr_add slice_u8 (ptr s) i; len := len s - i |}
  else empty_slice.
Proof using size_ok.
  intros Hwf Hi. destruct (Z.leb_spec i (len s)) as [Hle | Hgt].
  - apply subslice_i_in_range; trivial; lia.
  - apply (run_out_of_range (call_i i)); exact Hgt.
Qed.

Lemma subslice_j_guard s j :
  slice_wf SIZE_MAX s -> 0 <= j ->
  wuffs_base__slice_u8__subslice_j SIZE_MAX s j =
  if j <=? len s then {| ptr := ptr s; len := j |} else empty_slice.
Proof using size_ok.
  intros Hwf Hj. destruct (Z.leb_spec j (len s)) as [Hle | Hgt].
  - apply subslice_j_in_range; trivial; lia.
  - apply (run_out_of_range (call_j j)); exact Hgt.
Qed.

Lemma subslice_ij_guard s i j :
  slice_wf SIZE_MAX s -> 0 <= i ->
  wuffs_base__slice_u8__subslice_ij SIZE_MAX s i j =
  if (i <=? j) && (j <=? len s)
  then {| ptr := ptr_add slice_u8 (ptr s) i; len := j - i |}
  else empty_slice.
Proof using size_ok.
  intros Hwf Hi.
  destruct (Z.leb_spec i j) as [Hij | Hij];
    [destruct (Z.leb_spec j (len s)) as [Hle | Hgt] |]; cbn [andb].
  - apply subslice_ij_in_range; trivial; lia.
  - apply (run_out_of_range (call_ij i j)); right; exact Hgt.
  - apply (run_out_of_range (call_ij i j)); left; exact Hij.
Qed.

(** Resolves the guards of every sub-slicing call in the goal, innermost
    first, and compares the resulting records field by field. *)
Ltac wf_side :=
  first [ assumption
        | exact empty_slice_wf
        | unfold slice_wf, size_t_ok in *; cbn [len ptr empty_slice] in *; lia ].

Ltac resolve_guards :=
  repeat first
    [ rewrite subslice_i_guard by wf_side
    | rewrite subslice_j_guard by wf_side
    | rewrite subslice_ij_guard by wf_side
    | match goal with
      | |- context [?a <=? ?b] =>
          destruct (Z.leb_spec a b); cbn [andb len ptr empty_slice] in *
      end ];
  try reflexivity; try lia;
  try (apply slice_eq; unfold ptr_add, Status.NULL; cbn [elem_size]; lia).

Variable s : slice.
Hypothesis s_wf : slice_wf SIZE_MAX s.

(** X14. The length of [s[i:]] is the 64-bit saturating difference
    [sat_sub s.len i]; the length of [s[:j]] is [j], and that of [s[i:j]]
    is [sat_sub j i], when [j <= s.len], and 0 otherwise. *)
Theorem subslice_len (i j : Z) :
  is_uint 64 i -> is_uint 64 j ->
  len (wuffs_base__slice_u8__subslice_i SIZE_MAX s i) =
    wuffs_base__u64__sat_sub (len s) i /\
  len (wuffs_base__slice_u8__subslice_j SIZE_MAX s j) =
    (if j <=? len s then j else 0) /\
  len (wuffs_base__slice_u8__subslice_ij SIZE_MAX s i j) =
    (if j <=? len s then wuffs_base__u64__sat_sub j i else 0).
Proof using size_ok s_wf.
  intros Hi Hj.
  assert (Hl : is_uint 64 (len s))
    by (unfold is_uint, slice_wf, size_t_ok in *; lia).
  rewrite (sat_sub_max W64 (len s) i Hl Hi : wuffs_base__u64__sat_sub _ _ = _).
  rewrite (sat_sub_max W64 j i Hj Hi : wuffs_base__u64__sat_sub _ _ = _).
  unfold is_uint in Hi, Hj.
  split; [| split]; resolve_guards.
Qed.

(** X15. [s[i:j]] is [s[:j]] followed by [[i:]], for all arguments, in
    range or not: [subslice_ij s i j = subslice_i (subslice_j s j) i]. *)
Theorem subslice_ij_as_j_then_i (i j : Z) :
  is_uint 64 i -> is_uint 64 j ->
  wuffs_base__slice_u8__subslice_ij SIZE_MAX s i j =
  wuffs_base__slice_u8__subslice_i SIZE_MAX
    (wuffs_base__slice_u8__subslice_j SIZE_MAX s j) i.
Proof using size_ok s_wf.
  unfold is_uint; intros Hi Hj.
  rewrite (subslice_j_guard s j) by wf_side.
  destruct (Z.leb_spec j (len s)); resolve_guards.
Qed.

(** X16. [s[i:j]] is [s[i:]] followed by [[:j - i]], when [i <= j]:
    [subslice_ij s i j = subslice_j (subslice_i s i) (j - i)]. *)
Theorem subslice_ij_as_i_then_j (i j : Z) :
  is_uint 64 i -> is_uint 64 j -> i <= j ->
  wuffs_base__slice_u8__subslice_ij SIZE_MAX s i j =
  wuffs_base__slice_u8__subslice_j SIZE_MAX
    (wuffs_base__slice_u8__subslice_i SIZE_MAX s i) (j - i).
Proof using size_ok s_wf.
  unfold is_uint; intros Hi Hj Hij.
  rewrite (subslice_i_guard s i) by wf_side.
  destruct (Z.leb_spec i (len s)); resolve_guards.
Qed.

(** X17. Dropping [a] elements and then [b] more is dropping [a + b]:
    [subslice_i (subslice_i s a) b = subslice_i s (a + b)], in range or
    not, when [a + b] is a [uint64_t]. *)
Theorem subslice_i_twice (a b : Z) :
  is_uint 64 a -> is_uint 64 b -> is_uint 64 (a + b) ->
  wuffs_base__slice_u8__subslice_i SIZE_MAX
    (wuffs_base__slice_u8__subslice_i SIZE_MAX s a) b =
  wuffs_base__slice_u8__subslice_i SIZE_MAX s (a + b).
Proof using size_ok s_wf.
  unfold is_uint; intros Ha Hb Hab.
  rewrite (subslice_i_guard s a) by wf_side.
  destruct (Z.leb_spec a (len s)); resolve_guards.
Qed.

(** X18. Keeping [j] elements and then [k <= j] of them is keeping [k]:
    [subslice_j (subslice_j s j) k = subslice_j s k] when [k <= j <= s.len]. *)
Theorem subslice_j_twice (j k : Z) :
  is_uint 64 j -> is_uint 64 k -> k <= j -> j <= len s ->
  wuffs_base__slice_u8__subslice_j SIZE_MAX
    (wuffs_base__slice_u8__subslice_j SIZE_MAX s j) k =
  wuffs_base__slice_u8__subslice_j SIZE_MAX s k.
Proof using size_ok s_wf.
  unfold is_uint; intros Hj Hk Hkj Hjl.
  rewrite (subslice_j_guard s j) by wf_side.
  destruct (Z.leb_spec j (len s)); resolve_guards.
Qed.

(** X19. A range of a range is a range of the original with the offsets
    added: [subslice_ij (subslice_ij s i j) a b = subslice_ij s (i+a) (i+b)]
    when [i <= j <= s.len] and [a <= b <= j - i]. *)
Theorem subslice_ij_twice (i j a b : Z) :
  0 <= i -> i <= j -> j <= len s -> 0 <= a -> a <= b -> b <= j - i ->
  wuffs_base__slice_u8__subslice_ij SIZE_MAX
    (wuffs_base__slice_u8__subslice_ij SIZE_MAX s i j) a b =
  wuffs_base__slice_u8__subslice_ij SIZE_MAX s (i + a) (i + b).
Proof using size_ok s_wf.
  intros Hi Hij Hj Ha Hab Hb.
  rewrite (subslice_ij_guard s i j) by wf_side.
  destruct (Z.leb_spec i j); destruct (Z.leb_spec j (len s));
    cbn [andb]; resolve_guards.
Qed.

(** X20. Splitting at [k <= s.len]: [s[:k]] starts where [s] starts,
    [s[k:]] starts where [s[:k]] ends, and their lengths add up to
    [s.len]. *)
Theorem subslice_split (k : Z) :
  0 <= k <= len s ->
  let p := wuffs_base__slice_u8__subslice_j SIZE_MAX s k in
  let q := wuffs_base__slice_u8__subslice_i SIZE_MAX s k in
  ptr p = ptr s /\
  ptr q = ptr_add slice_u8 (ptr p) (len p) /\
  len p + len q = len s.
Proof using size_ok s_wf.
  intros Hk p q; subst p q.
  rewrite subslice_j_guard, subslice_i_guard by wf_side.
  destruct (Z.leb_spec k (len s)); [| lia].
  cbn [ptr len]. repeat split; lia.
Qed.

(** X21. Sub-slicing the empty slice gives the empty slice, whatever the
    arguments. *)
Theorem subslice_of_empty (c : subslice_call) :
  call_typed c -> run SIZE_MAX c empty_slice = empty_slice.
Proof using size_ok.
  intros Hty.
  destruct c as [i | j | i j]; cbn [run call_typed] in *;
    unfold is_uint in Hty; resolve_guards.
Qed.

(** X22. With a non-[NULL] [s.ptr], the result is the empty slice exactly
    when the arguments are out of range: an in-range result of length 0
    still points into [s]. *)
Theorem subslice_empty_iff_out_of_range (c : subslice_call) :
  0 < ptr s -> call_typed c ->
  (run SIZE_MAX c s = empty_slice <-> out_of_range s c) /\
  (ptr (run SIZE_MAX c s) = Status.NULL <-> out_of_range s c).
Proof using size_ok s_wf.
  intros Hp Hty.
  assert (Hnull : forall r, r = empty_slice -> ptr r = Status.NULL)
    by (intros r ->; reflexivity).
  assert (Hiff : ptr (run SIZE_MAX c s) = Status.NULL <-> out_of_range s c).
  { split; [| intros Hout; rewrite run_out_of_range by exact Hout; reflexivity].
    destruct c as [i | j | i j]; cbn [run call_typed out_of_range] in *;
      unfold is_uint in Hty; resolve_guards;
      cbn [ptr]; unfold ptr_add, Status.NULL; cbn [elem_size]; lia. }
  split; [| exact Hiff].
  split; [intros Hr; apply Hiff, Hnull, Hr | apply run_out_of_range].
Qed.

End SubSliceAlgebra.

(** ** Slices: chains of calls, and the width of [size_t] *)

Section SubSliceChains.
Import CInt Slice.

Lemma window_wf (M : Z) (s r : slice) (off : Z) :
  slice_wf M s -> window_at s off r -> slice_wf M r.
Proof. unfold slice_wf, window_at; intros Hs (_ & _ & Hl & _); lia. Qed.

Lemma window_trans (s r q : slice) (o1 o2 : Z) :
  window_at s o1 r -> window_at r o2 q -> window_at s (o1 + o2) q.
Proof.
  unfold window_at, ptr_add; cbn [elem_size].
  intros (Ho1 & Hp1 & Hl1 & He1) (Ho2 & Hp2 & Hl2 & He2).
  repeat split; lia.
Qed.

(** The only window of the empty slice is the empty slice. *)
Lemma window_of_empty (r : slice) (off : Z) :
  window_at empty_slice off r -> r = empty_slice.
Proof.
  unfold window_at, ptr_add; cbn [elem_size len ptr empty_slice].
  intros (Ho & Hp & Hl & He). destruct r as [p l]; cbn [ptr len] in *.
  unfold empty_slice; f_equal; lia.
Qed.

(** A call returns the empty slice or a window of its argument. *)
Lemma run_shape (M : Z) (s : slice) (c : subslice_call) :
  size_t_ok M -> slice_wf M s -> call_typed c ->
  run M c s = empty_slice \/ exists off, window_at s off (run M c s).
Proof.
  intros HM Hwf Hty. pose proof Hwf as Hlen; unfold slice_wf in Hlen.
  destruct c as [i | j | i j]; cbn [run call_typed] in *; unfold is_uint in Hty.
  - rewrite subslice_i_guard by (trivial; lia).
    destruct (Z.leb_spec i (len s)); [right; exists i | left; reflexivity].
    unfold window_at; cbn [ptr len]; repeat split; lia.
  - rewrite subslice_j_guard by (trivial; lia).
    destruct (Z.leb_spec j (len s)); [right; exists 0 | left; reflexivity].
    unfold window_at, ptr_add; cbn [ptr len]; repeat split; lia.
  - rewrite subslice_ij_guard by (trivial; lia).
    destruct (Z.leb_spec i j); destruct (Z.leb_spec j (len s)); cbn [andb];
      try (left; reflexivity).
    right; exists i. unfold window_at; cbn [ptr len]; repeat split; lia.
Qed.

(** X23. Two sub-slicing calls in a row, whatever their arguments, return
    the empty slice or a slice contained in the original one: a chain of
    calls never reaches outside the slice it started from. *)
Theorem subslice_chain_contained
  (M : Z) (s : slice) (c1 c2 : subslice_call) :
  size_t_ok M -> slice_wf M s -> call_typed c1 -> call_typed c2 ->
  run M c2 (run M c1 s) = empty_slice \/
  contained_in s (run M c2 (run M c1 s)).
Proof.
  intros HM Hwf Hty1 Hty2.
  destruct (run_shape M s c1 HM Hwf Hty1) as [He1 | [o1 Hw1]].
  - rewrite He1. left.
    assert (Hwe : slice_wf M empty_slice)
      by (unfold slice_wf, size_t_ok in *; cbn [len empty_slice]; lia).
    destruct (run_shape M empty_slice c2 HM Hwe Hty2) as [He2 | [o2 Hw2]];
      [exact He2 | exact (window_of_empty _ _ Hw2)].
  - pose proof (window_wf M s _ o1 Hwf Hw1) as Hwf1.
    destruct (run_shape M (run M c1 s) c2 HM Hwf1 Hty2) as [He2 | [o2 Hw2]];
      [left; exact He2 | right].
    exists (o1 + o2). exact (window_trans _ _ _ _ _ Hw1 Hw2).
Qed.

(** X24. On a slice that is well-formed for both, a platform with a
    narrower and one with a wider [size_t] compute the same result for every
    call: the [SIZE_MAX] test never decides on its own. *)
Theorem subslice_size_t_independent
  (M1 M2 : Z) (s : slice) (c : subslice_call) :
  size_t_ok M1 -> size_t_ok M2 ->
  slice_wf M1 s -> slice_wf M2 s -> call_typed c ->
  run M1 c s = run M2 c s.
Proof.
  intros H1 H2 Hwf1 Hwf2 Hty.
  destruct c as [i | j | i j]; cbn [run call_typed] in *; unfold is_uint in Hty.
  - rewrite (subslice_i_guard M1), (subslice_i_guard M2) by (trivial; lia).
    reflexivity.
  - rewrite (subslice_j_guard M1), (subslice_j_guard M2) by (trivial; lia).
    reflexivity.
  - rewrite (subslice_ij_guard M1), (subslice_ij_guard M2) by (trivial; lia).
    reflexivity.
Qed.

End SubSliceChains.

Section SubSliceAlgebraInstances.
Import CInt Slice Numeric.

Ltac side :=
  unfold size_t_ok, slice_wf, is_uint, size_max_32, size_max_64, buf10;
  cbn [len ptr call_typed];
  repeat split; lia.

Lemma subslice_len_witness :
  len (wuffs_base__slice_u8__subslice_i size_max_64 buf10 12) =
    wuffs_base__u64__sat_sub (len buf10) 12 /\
  len (wuffs_base__slice_u8__subslice_j size_max_64 buf10 7) =
    (if 7 <=? len buf10 then 7 else 0) /\
  len (wuffs_base__slice_u8__subslice_ij size_max_64 buf10 12 7) =
    (if 7 <=? len buf10 then wuffs_base__u64__sat_sub 7 12 else 0).
Proof. apply (subslice_len size_max_64); side. Defined.

Lemma subslice_ij_as_j_then_i_witness :
  wuffs_base__slice_u8__subslice_ij size_max_64 buf10 3 7 =
  wuffs_base__slice_u8__subslice_i size_max_64
    (wuffs_base__slice_u8__subslice_j size_max_64 buf10 7) 3.
Proof. apply (subslice_ij_as_j_then_i size_max_64); side. Defined.

Lemma subslice_ij_as_i_then_j_witness :
  wuffs_base__slice_u8__subslice_ij size_max_64 buf10 3 7 =
  wuffs_base__slice_u8__subslice_j size_max_64
    (wuffs_base__slice_u8__subslice_i size_max_64 buf10 3) (7 - 3).
Proof. apply (subslice_ij_as_i_then_j size_max_64); side. Defined.

Lemma subslice_i_twice_witness :
  wuffs_base__slice_u8__subslice_i size_max_64
    (wuffs_base__slice_u8__subslice_i size_max_64 buf10 3) 4 =
  wuffs_base__slice_u8__subslice_i size_max_64 buf10 (3 + 4).
Proof. apply (subslice_i_twice size_max_64); side. Defined.

Lemma subslice_j_twice_witness :
  wuffs_base__slice_u8__subslice_j size_max_64
    (wuffs_base__slice_u8__subslice_j size_max_64 buf10 7) 4 =
  wuffs_base__slice_u8__subslice_j size_max_64 buf10 4.
Proof. apply (subslice_j_twice size_max_64); side. Defined.

Lemma subslice_ij_twice_witness :
  wuffs_base__slice_u8__subslice_ij size_max_64
    (wuffs_base__slice_u8__subslice_ij size_max_64 buf10 3 7) 1 2 =
  wuffs_base__slice_u8__subslice_ij size_max_64 buf10 (3 + 1) (3 + 2).
Proof. apply (subslice_ij_twice size_max_64); side. Defined.

Lemma subslice_split_witness :
  let p := wuffs_base__slice_u8__subslice_j size_max_64 buf10 4 in
  let q := wuffs_base__slice_u8__subslice_i size_max_64 buf10 4 in
  ptr p = ptr buf10 /\
  ptr q = ptr_add slice_u8 (ptr p) (len p) /\
  len p + len q = len buf10.
Proof. apply (subslice_split size_max_64); side. Defined.

Lemma subslice_of_empty_witness :
  run size_max_64 (call_i 0) empty_slice = empty_slice.
Proof. apply (subslice_of_empty size_max_64); side. Defined.

Lemma subslice_empty_iff_out_of_range_witness :
  (run size_max_64 (call_i 10) buf10 = empty_slice <->
   out_of_range buf10 (call_i 10)) /\
  (ptr (run size_max_64 (call_i 10) buf10) = Status.NULL <->
   out_of_range buf10 (call_i 10)).
Proof. apply (subslice_empty_iff_out_of_range size_max_64); side. Defined.

Lemma subslice_chain_contained_witness :
  run size_max_64 (call_j 5) (run size_max_64 (call_i 3) buf10) = empty_slice \/
  contained_in buf10 (run size_max_64 (call_j 5) (run size_max_64 (call_i 3) buf10)).
Proof. apply (subslice_chain_contained size_max_64); side. Defined.

Lemma subslice_size_t_independent_witness :
  run size_max_32 (call_ij 3 7) buf10 = run size_max_64 (call_ij 3 7) buf10.
Proof. apply (subslice_size_t_independent size_max_32 size_max_64); side. Defined.

End SubSliceAlgebraInstances.
